(** * testCustomType: the nullable composite-to-domain mapping and its rendering

    A shallow embedding of the Go program that reads a PostgreSQL composite
    [resolution] column through a data transfer object with nullable fields
    ([resolutionDTO]), converts it to the application type ([Resolution]) and
    prints it with [fmt.Sprintf "[%d, %d] at %c"].

    Go values are modelled as follows.
    - [int] and [rune] are integers of [Z] together with the conversions
      ([uint64], [int64], [uint32], [int32], [byte]) that the library code
      applies to them, wrap-around written out.
    - A pointer [*T] is an [option T]; [nil] is [None] and a dereference of
      [nil] is a run-time panic, kept as a [fault].
    - A Go [string] is a sequence of bytes: a [string] of 8-bit [ascii].
    - Code that can panic runs in the [outcome] monad. *)

From Stdlib Require Import ZArith NArith Nnat List String Ascii Bool Lia.
From Stdlib Require Import DecimalString DecimalPos DecimalZ.
Import ListNotations.

Local Open Scope Z_scope.

(** ** Run-time basics *)

Module Go.

(** What stops an execution before it returns a value. *)
Inductive fault : Set :=
| NilDereference     (* [*p] with [p == nil] *)
| IndexOutOfRange    (* [buf[i]] outside the array *)
| Unmodelled.        (* library behaviour outside the fragment embedded here *)

Inductive outcome (A : Type) : Type :=
| Ok (a : A)
| Fault (f : fault).

Arguments Ok {A} a.
Arguments Fault {A} f.

Definition bind {A B : Type} (m : outcome A) (k : A -> outcome B) : outcome B :=
  match m with
  | Ok a => k a
  | Fault f => Fault f
  end.

Definition fmap {A B : Type} (g : A -> B) (m : outcome A) : outcome B :=
  bind m (fun a => Ok (g a)).

(** [p == nil] *)
Definition is_nil {A : Type} (p : option A) : bool :=
  match p with
  | None => true
  | Some _ => false
  end.

(** [*p] *)
Definition deref {A : Type} (p : option A) : outcome A :=
  match p with
  | Some v => Ok v
  | None => Fault NilDereference
  end.

(** Integer conversions. *)
Definition uint64 (z : Z) : Z := z mod 2 ^ 64.
Definition uint32 (z : Z) : Z := z mod 2 ^ 32.
Definition byte (z : Z) : Z := z mod 2 ^ 8.
Definition int64 (z : Z) : Z := (z + 2 ^ 63) mod 2 ^ 64 - 2 ^ 63.
Definition int32 (z : Z) : Z := (z + 2 ^ 31) mod 2 ^ 32 - 2 ^ 31.

(** The values of the types [int] (64 bits) and [rune] (= [int32]). *)
Definition is_int (z : Z) : Prop := - 2 ^ 63 <= z < 2 ^ 63.
Definition is_rune (z : Z) : Prop := - 2 ^ 31 <= z < 2 ^ 31.

(** A byte as an element of a string. *)
Definition chr (b : Z) : ascii := ascii_of_N (Z.to_N b).

Fixpoint bytes_string (bs : list Z) : string :=
  match bs with
  | [] => EmptyString
  | b :: bs' => String (chr b) (bytes_string bs')
  end.

End Go.

Import Go.

Declare Scope outcome_scope.
Delimit Scope outcome_scope with outcome.
Notation "x <- m ;; k" := (bind m (fun x => k))
  (at level 61, m at next level, right associativity) : outcome_scope.
Local Open Scope outcome_scope.

(** ** The data model (part_000, lines 30-44) *)

(** [type Resolution struct { Width, Height int; Scan rune }] *)
Record Resolution : Set := mkResolution {
  Width : Z;
  Height : Z;
  Scan : Z
}.

(** [type resolutionDTO struct { Width, Height *int; Scan *rune }] *)
Record resolutionDTO : Set := mkDTO {
  dtoWidth : option Z;
  dtoHeight : option Z;
  dtoScan : option Z
}.

(** Values that inhabit the Go types. *)
Definition wf_Resolution (r : Resolution) : Prop :=
  is_int (Width r) /\ is_int (Height r) /\ is_rune (Scan r).

Definition wf_opt (P : Z -> Prop) (p : option Z) : Prop :=
  match p with
  | Some v => P v
  | None => True
  end.

Definition wf_DTO (d : resolutionDTO) : Prop :=
  wf_opt is_int (dtoWidth d) /\ wf_opt is_int (dtoHeight d) /\ wf_opt is_rune (dtoScan d).

(** The rune literal ['P']. *)
Definition rune_P : Z := 80.

(** ** AsResolution (part_000, lines 47-69) *)

Inductive field : Set := FWidth | FHeight | FScan.

(** The activation of [AsResolution]: the local [result] and, as ghost
    state, the fields that an assignment statement has written, in order. *)
Record frame : Set := mkFrame {
  result : Resolution;
  assigned : list field
}.

(** [var result Resolution]: the zero value, nothing assigned yet. *)
Definition frame0 : frame :=
  {| result := {| Width := 0; Height := 0; Scan := 0 |}; assigned := [] |}.

(** [result.f = v] *)
Definition assign (f : field) (v : Z) (fr : frame) : frame :=
  let r := result fr in
  {| result :=
       match f with
       | FWidth => {| Width := v; Height := Height r; Scan := Scan r |}
       | FHeight => {| Width := Width r; Height := v; Scan := Scan r |}
       | FScan => {| Width := Width r; Height := Height r; Scan := v |}
       end;
     assigned := assigned fr ++ [f] |}.

Definition AsResolution_frame (rdto : resolutionDTO) : outcome frame :=
  let fr := frame0 in
  fr <- (if is_nil (dtoWidth rdto) then Ok (assign FWidth 0 fr)
         else v <- deref (dtoWidth rdto) ;; Ok (assign FWidth v fr)) ;;
  fr <- (if is_nil (dtoHeight rdto) then Ok (assign FHeight 0 fr)
         else v <- deref (dtoHeight rdto) ;; Ok (assign FHeight v fr)) ;;
  fr <- (if is_nil (dtoScan rdto) then Ok (assign FScan rune_P fr)
         else v <- deref (dtoScan rdto) ;; Ok (assign FScan v fr)) ;;
  Ok fr.

(** [return result] *)
Definition AsResolution (rdto : resolutionDTO) : outcome Resolution :=
  fr <- AsResolution_frame rdto ;; Ok (result fr).

(** ** The library code behind [fmt.Sprintf "[%d, %d] at %c"]

    [Resolution.String] is one call of [fmt.Sprintf]; what it returns is
    decided by the Go standard library.  The fragment that the program
    reaches is embedded here: [unicode/utf8.AppendRune], and from package
    [fmt] the integer formatter, the character formatter and the scan of the
    format string for the verbs [%d], [%c], [%v] and [%s] without flags. *)

Module utf8.

Definition RuneError : Z := 65533.      (* U+FFFD *)
Definition MaxRune : Z := 1114111.      (* U+10FFFF *)
Definition surrogateMin : Z := 55296.   (* 0xD800 *)
Definition surrogateMax : Z := 57343.   (* 0xDFFF *)
Definition t2 : Z := 192.               (* 0b11000000 *)
Definition t3 : Z := 224.               (* 0b11100000 *)
Definition t4 : Z := 240.               (* 0b11110000 *)
Definition tx : Z := 128.               (* 0b10000000 *)
Definition maskx : Z := 63.             (* 0b00111111 *)
Definition rune1Max : Z := 127.         (* 1<<7 - 1 *)
Definition rune2Max : Z := 2047.        (* 1<<11 - 1 *)
Definition rune3Max : Z := 65535.       (* 1<<16 - 1 *)

(** The three-byte form, shared by the [RuneError] case that falls through. *)
Definition three (r : Z) : list Z :=
  [ Z.lor t3 (byte (Z.shiftr r 12));
    Z.lor tx (Z.land (byte (Z.shiftr r 6)) maskx);
    Z.lor tx (Z.land (byte r) maskx) ].

Definition appendRuneNonASCII (p : list Z) (r : Z) : list Z :=
  let i := uint32 r in
  if i <=? rune2Max then
    p ++ [ Z.lor t2 (byte (Z.shiftr r 6));
           Z.lor tx (Z.land (byte r) maskx) ]
  else if (MaxRune <? i) || ((surrogateMin <=? i) && (i <=? surrogateMax)) then
    p ++ three RuneError
  else if i <=? rune3Max then
    p ++ three r
  else
    p ++ [ Z.lor t4 (byte (Z.shiftr r 18));
           Z.lor tx (Z.land (byte (Z.shiftr r 12)) maskx);
           Z.lor tx (Z.land (byte (Z.shiftr r 6)) maskx);
           Z.lor tx (Z.land (byte r) maskx) ].

Definition AppendRune (p : list Z) (r : Z) : list Z :=
  if uint32 r <=? rune1Max then p ++ [byte r]
  else appendRuneNonASCII p r.

End utf8.

Module fmt.

(** [ldigits] *)
Definition ldigits : string := "0123456789abcdefx".

(** [len(f.intbuf)] *)
Definition intbuf_len : nat := 68.

(** [i--; buf[i] = c], the buffer kept as its filled tail [buf[i:]]. *)
Definition store (i : nat) (c : ascii) (tail : string) : outcome (nat * string) :=
  match i with
  | O => Fault IndexOutOfRange
  | S i' => Ok (i', String c tail)
  end.

(** [for u >= 10 { i--; next := u / 10; buf[i] = byte('0' + u - next*10); u = next }] *)
Fixpoint digit_loop (i : nat) (u : Z) (tail : string) : outcome (nat * Z * string) :=
  if 10 <=? u then
    match i with
    | O => Fault IndexOutOfRange
    | S i' =>
        let next := u / 10 in
        digit_loop i' next (String (chr (byte (uint64 (48 + u - next * 10)))) tail)
    end
  else Ok (i, u, tail).

(** [fmtInteger(u, 10, isSigned, verb, ldigits)] with no flag, width or
    precision set; the result is what [f.pad(buf[i:])] writes. *)
Definition fmtInteger (u : Z) (isSigned : bool) : outcome string :=
  let negative := isSigned && (int64 u <? 0) in
  let u := if negative then uint64 (- u) else u in
  st <- digit_loop intbuf_len u EmptyString ;;
  let '(i, u, tail) := st in
  c <- match String.get (Z.to_nat u) ldigits with
       | Some c => Ok c
       | None => Fault IndexOutOfRange
       end ;;
  st <- store i c tail ;;
  st <- (if negative then store (fst st) "-"%char (snd st) else Ok st) ;;
  Ok (snd st).

(** [fmtC(c uint64)] *)
Definition fmtC (c : Z) : outcome string :=
  let r := int32 c in
  let r := if utf8.MaxRune <? c then utf8.RuneError else r in
  Ok (bytes_string (utf8.AppendRune [] r)).

(** An operand of [Sprintf]. *)
Inductive arg : Type :=
| AInt (v : Z)                      (* an [int] *)
| ARune (v : Z)                     (* a [rune] *)
| AStringer (str : outcome string)  (* a value with a [String] method, and what the method returns *)
| AError (msg : string).            (* an [error], and what [Error()] returns *)

(** [printArg(arg, verb)]. *)
Definition printArg (a : arg) (verb : ascii) : outcome string :=
  match a with
  | AInt v | ARune v =>
      if (Ascii.eqb verb "d" || Ascii.eqb verb "v")%bool then fmtInteger (uint64 v) true
      else if Ascii.eqb verb "c" then fmtC (uint64 v)
      else Fault Unmodelled
  | AStringer str =>
      if (Ascii.eqb verb "v" || Ascii.eqb verb "s")%bool then str
      else Fault Unmodelled
  | AError msg =>
      if (Ascii.eqb verb "v" || Ascii.eqb verb "s")%bool then Ok msg
      else Fault Unmodelled
  end.

Definition is_verb (c : ascii) : bool :=
  (Ascii.eqb c "d" || Ascii.eqb c "c" || Ascii.eqb c "v" || Ascii.eqb c "s")%bool.

(** [doPrintf(format, a)]: bytes up to a [%] are copied, [%%] writes a
    percent sign, a verb consumes the next operand. *)
Fixpoint doPrintf (format : string) (a : list arg) : outcome string :=
  match format with
  | EmptyString =>
      match a with
      | [] => Ok EmptyString
      | _ :: _ => Fault Unmodelled          (* %!(EXTRA ...) *)
      end
  | String c rest =>
      if Ascii.eqb c "%" then
        match rest with
        | EmptyString => Ok "%!(NOVERB)"%string
        | String verb rest' =>
            if Ascii.eqb verb "%" then fmap (String "%"%char) (doPrintf rest' a)
            else if is_verb verb then
              match a with
              | [] =>
                  fmap (append ("%!" ++ String verb "(MISSING)")) (doPrintf rest' [])
              | x :: a' =>
                  s <- printArg x verb ;;
                  fmap (append s) (doPrintf rest' a')
              end
            else Fault Unmodelled              (* flags, width, other verbs *)
        end
      else fmap (String c) (doPrintf rest a)
  end.

Definition Sprintf (format : string) (a : list arg) : outcome string :=
  doPrintf format a.

End fmt.

(** ** Resolution.String (part_000, lines 72-74; testtype.go, lines 34-36) *)

Definition Resolution_String (r : Resolution) : outcome string :=
  fmt.Sprintf "[%d, %d] at %c" [fmt.AInt (Width r); fmt.AInt (Height r); fmt.ARune (Scan r)].

(** ** The read loop of [main] (part_000, lines 136-151)

    [rows.Scan(&some)] belongs to the database driver; its three possible
    results per row are the input of the loop body.  The loop's observable
    behaviour is the sequence of calls it makes to the mapper and to the
    logger; for the logger the text handed to it is recorded (the time stamp
    and the line end are the logger's). *)

Inductive scanned : Type :=
| ScanFailed (err : string)                 (* [err != nil] *)
| ScanDone (some : option resolutionDTO).   (* [err == nil], [some] set by the driver *)

Inductive event : Type :=
| Called_AsResolution (rdto : resolutionDTO)
| Logged (text : string).

(** [log.Printf(format, a...)] *)
Definition log_Printf (format : string) (a : list fmt.arg) (tr : list event)
  : outcome (list event) :=
  text <- fmt.Sprintf format a ;; Ok (tr ++ [Logged text]).

(** [some.AsResolution()] through the pointer [some] *)
Definition call_AsResolution (some : option resolutionDTO) (tr : list event)
  : outcome (Resolution * list event) :=
  rdto <- deref some ;;
  r <- AsResolution rdto ;;
  Ok (r, tr ++ [Called_AsResolution rdto]).

Definition loop_body (row : scanned) (tr : list event) : outcome (list event) :=
  match row with
  | ScanFailed err => log_Printf "Failed to scan: %v" [fmt.AError err] tr
  | ScanDone some =>
      if negb (is_nil some) then
        st <- call_AsResolution some tr ;;
        log_Printf "Got %v" [fmt.AStringer (Resolution_String (fst st))] (snd st)
      else
        log_Printf "No defined resolution" [] tr
  end.

(** [for rows.Next() { ... }].  The list holds, for the rows of the result
    set in order, what [Scan] reports.  [rows.Next()] is false when no row is
    left, and also after a [Scan] that failed: the driver (pgx v4) closes the
    row set on a scan error, so the rows behind a failed one are not read. *)
Fixpoint read_loop (rows : list scanned) (tr : list event) : outcome (list event) :=
  match rows with
  | [] => Ok tr
  | row :: rows' =>
      tr' <- loop_body row tr ;;
      match row with
      | ScanFailed _ => Ok tr'
      | ScanDone _ => read_loop rows' tr'
      end
  end.

(** ** The rendering as the specification words it

    [[<width>, <height>] at <scan>]: the two integers in decimal notation
    and the scan-mode as a character.  Decimal notation is the Standard
    Library's printer of [Z]; a character is the UTF-8 form of its code
    point, written with division and remainder; an integer that is not the
    code point of a character is shown as U+FFFD, as a conversion of that
    integer to a Go string shows it. *)

Module Spec.

Definition decimal (z : Z) : string := NilZero.string_of_int (Z.to_int z).

(** The code points of characters: U+0000 to U+10FFFF without the surrogates. *)
Definition is_char (c : Z) : Prop :=
  0 <= c <= 1114111 /\ ~ (55296 <= c <= 57343).

Definition is_charb (c : Z) : bool :=
  (0 <=? c) && (c <=? 1114111) && negb ((55296 <=? c) && (c <=? 57343)).

Definition utf8_bytes (c : Z) : list Z :=
  if c <? 128 then [c]
  else if c <? 2048 then [192 + c / 64; 128 + c mod 64]
  else if c <? 65536 then [224 + c / 4096; 128 + (c / 64) mod 64; 128 + c mod 64]
  else [240 + c / 262144; 128 + (c / 4096) mod 64; 128 + (c / 64) mod 64; 128 + c mod 64].

Definition char_text (c : Z) : string :=
  bytes_string (utf8_bytes (if is_charb c then c else 65533)).

Definition rendering (r : Resolution) : string :=
  ("[" ++ decimal (Width r) ++ ", " ++ decimal (Height r) ++ "] at " ++ char_text (Scan r))%string.

(** The transfer value with every field present, built from a domain value. *)
Definition dto_of (r : Resolution) : resolutionDTO :=
  {| dtoWidth := Some (Width r); dtoHeight := Some (Height r); dtoScan := Some (Scan r) |}.

End Spec.

(** ** Auxiliary notions for the proofs *)

(** The decimal digit [d] in front of [rest]. *)
Definition digit_cons (d : N) (rest : Decimal.uint) : Decimal.uint :=
  match d with
  | 0%N => Decimal.D0 rest | 1%N => Decimal.D1 rest | 2%N => Decimal.D2 rest | 3%N => Decimal.D3 rest
  | 4%N => Decimal.D4 rest | 5%N => Decimal.D5 rest | 6%N => Decimal.D6 rest | 7%N => Decimal.D7 rest
  | 8%N => Decimal.D8 rest | _ => Decimal.D9 rest
  end.

(** Decimal notation of a natural number. *)
Definition udec (n : N) : string := NilZero.string_of_uint (N.to_uint n).

(** The characters of a number in decimal notation. *)
Definition sign_or_digit (c : ascii) : bool :=
  match c with
  | "-"%char | "0"%char | "1"%char | "2"%char | "3"%char | "4"%char
  | "5"%char | "6"%char | "7"%char | "8"%char | "9"%char => true
  | _ => false
  end.

Fixpoint all_chars (p : ascii -> bool) (s : string) : bool :=
  match s with
  | EmptyString => true
  | String c s' => p c && all_chars p s'
  end.

(** Byte values. *)
Definition bytes_ok (bs : list Z) : Prop := Forall (fun b => 0 <= b < 256) bs.

(** ** The read loop of testtype.go (lines 98-105)

    The first version of the program scans the column into a [Resolution]
    directly: there is no transfer value and no nil case. *)

Inductive scanned_value : Type :=
| ValueFailed (err : string)        (* [err != nil] *)
| ValueDone (some : Resolution).    (* [err == nil], [some] set by the driver *)

Definition loop_body_value (row : scanned_value) (tr : list event) : outcome (list event) :=
  match row with
  | ValueFailed err => log_Printf "Failed to scan: %v" [fmt.AError err] tr
  | ValueDone some => log_Printf "Got %v" [fmt.AStringer (Resolution_String some)] tr
  end.

(** The same loop statement, with the same end after a [Scan] that failed. *)
Fixpoint read_loop_value (rows : list scanned_value) (tr : list event)
  : outcome (list event) :=
  match rows with
  | [] => Ok tr
  | row :: rows' =>
      tr' <- loop_body_value row tr ;;
      match row with
      | ValueFailed _ => Ok tr'
      | ValueDone _ => read_loop_value rows' tr'
      end
  end.

(** ** The connection hook (part_000, lines 86-114)

    [poolConfig.AfterConnect] runs on every new connection.  The three calls
    it makes into the driver are its environment: what [row.Scan(&oid)]
    yields for the OID query, what [pgtype.NewCompositeType] yields, and the
    name a composite type reports.  [conn.ConnInfo()] is kept as the list of
    the data types registered on it, in order. *)

Module Hook.

(** [*pgtype.CompositeType], as built by the driver. *)
Record CompositeType : Type := mkCompositeType {
  typeName : string;
  fields : list (string * Z)
}.

(** [pgtype.DataType{Value, Name, OID}] *)
Record DataType : Type := mkDataType {
  Value : CompositeType;
  Name : string;
  OID : Z
}.

Record env : Type := mkEnv {
  Int4OID : Z;                                    (* [pgtype.Int4OID] *)
  BPCharOID : Z;                                  (* [pgtype.BPCharOID] *)
  scan_oid : string -> string + Z;                (* the query; an error or the OID *)
  NewCompositeType : string -> list (string * Z) -> list DataType
                     -> string + CompositeType    (* an error or the type *)
}.

(** What the hook can change: the log and the connection's registry. *)
Record state : Type := mkState {
  logged : list string;
  registry : list DataType
}.

(** [log.Printf(format, err)] *)
Definition log_error (format : string) (err : string) (st : state) : outcome state :=
  text <- fmt.Sprintf format [fmt.AError err] ;;
  Ok {| logged := logged st ++ [text]; registry := registry st |}.

(** [conn.ConnInfo().RegisterDataType(dt)] *)
Definition RegisterDataType (dt : DataType) (st : state) : state :=
  {| logged := logged st; registry := registry st ++ [dt] |}.

(** The hook; its result is the returned [error] ([None] is [nil]). *)
Definition AfterConnect (e : env) (st : state) : outcome (option string * state) :=
  match scan_oid e "select 'resolution'::regtype::oid" with
  | inl err =>
      st <- log_error "Failed to scan oid: %v" err st ;;
      Ok (Some err, st)
  | inr oid =>
      match NewCompositeType e "resolution"
              [("width", Int4OID e); ("height", Int4OID e); ("scan", BPCharOID e)]%string
              (registry st) with
      | inl err =>
          st <- log_error "Failed to register new type: %v" err st ;;
          Ok (Some err, st)
      | inr ctype =>
          let st := RegisterDataType
                      {| Value := ctype; Name := typeName ctype; OID := uint32 oid |} st in
          Ok (None, st)
      end
  end.

End Hook.

(** ** [main] (part_000, lines 76-152)

    The driver's answers to the set-up calls and the rows it delivers are the
    environment.  [pgxpool.ConnectConfig] and [pool.Acquire] may open
    connections, and the pool runs the [AfterConnect] hook on each connection
    it opens; what the call returns may depend on what the hook returned.
    [defer] pushes a call on the function's stack of deferred calls; a return
    runs them, last pushed first; [log.Fatalf] logs and calls [os.Exit(1)],
    which ends the process at once without running deferred calls. *)

Module Main.

(** A connection that the pool opens: the hook's environment on it and the
    data types registered on it before the hook runs. *)
Record connection : Type := mkConnection {
  hook_env : Hook.env;
  conn_registry : list Hook.DataType
}.

(** A call into the pool: the connections it opens, in order, and the error
    it returns, if any, given what the hook returned on each of them. *)
Record pool_call : Type := mkPoolCall {
  opened : list connection;
  failure : list (option string) -> option string
}.

Record driver : Type := mkDriver {
  ParseConfig : option string;       (* the error of [pgxpool.ParseConfig], if any *)
  ConnectConfig : pool_call;         (* [pgxpool.ConnectConfig] *)
  Acquire : pool_call;               (* [pool.Acquire] *)
  Query : string + list scanned      (* the error of [conn.Query], or the rows *)
}.

Inductive deferred : Set := pool_Close | conn_Release | rows_Close.

Inductive action : Type :=
| Did (e : event)             (* a call of the mapper or a line handed to the logger *)
| Ran (d : deferred).         (* a deferred call, run *)

Inductive ending : Set :=
| Returned
| Exited (code : Z).

Record state : Type := mkState {
  actions : list action;
  defers : list deferred      (* the most recent first *)
}.

(** A line handed to the logger. *)
Definition line (text : string) : action := Did (Logged text).

(** [defer d] *)
Definition defer (d : deferred) (st : state) : state :=
  {| actions := actions st; defers := d :: defers st |}.

(** [log.Fatalf(format, err)] *)
Definition log_Fatalf (format : string) (err : string) (st : state)
  : outcome (list action * ending) :=
  text <- fmt.Sprintf format [fmt.AError err] ;;
  Ok (actions st ++ [line text], Exited 1).

(** The end of the function body. *)
Definition return_ (st : state) : outcome (list action * ending) :=
  Ok (actions st ++ map Ran (defers st), Returned).

(** The hook on one connection: what it returns and the lines it logs. *)
Definition run_hook (c : connection) : outcome (option string * list string) :=
  r <- Hook.AfterConnect (hook_env c)
         {| Hook.logged := []; Hook.registry := conn_registry c |} ;;
  Ok (fst r, Hook.logged (snd r)).

Fixpoint run_hooks (cs : list connection) : outcome (list (option string) * list string) :=
  match cs with
  | [] => Ok ([], [])
  | c :: cs' =>
      r <- run_hook c ;;
      rs <- run_hooks cs' ;;
      Ok (fst r :: fst rs, snd r ++ snd rs)
  end.

(** A call into the pool: the hook runs on the connections opened, its lines
    go to the log, and the call returns its error or nil. *)
Definition call_pool (c : pool_call) (st : state) : outcome (option string * state) :=
  r <- run_hooks (opened c) ;;
  Ok (failure c (fst r),
      {| actions := actions st ++ map line (snd r); defers := defers st |}).

Definition main (drv : driver) : outcome (list action * ending) :=
  let st := {| actions := []; defers := [] |} in
  match ParseConfig drv with
  | Some err => log_Fatalf "Failed to parse config: %v" err st
  | None =>
  r <- call_pool (ConnectConfig drv) st ;;
  match fst r with
  | Some err => log_Fatalf "Bailing - no database connection: %v" err (snd r)
  | None =>
  let st := defer pool_Close (snd r) in
  r <- call_pool (Acquire drv) st ;;
  match fst r with
  | Some err => log_Fatalf "Failed to acquire a connection from the pool: %v" err (snd r)
  | None =>
  let st := defer conn_Release (snd r) in
  match Query drv with
  | inl err => log_Fatalf "Bailing - query failed: %v" err st
  | inr rows =>
  let st := defer rows_Close st in
  tr <- read_loop rows [] ;;
  return_ {| actions := actions st ++ map Did tr; defers := defers st |}
  end end end end.

End Main.

(** ** Further notions for the statements *)

(** The rows that the loop reads: all of them up to the first one whose scan
    fails, that one included. *)
Fixpoint rows_read (rows : list scanned) : list scanned :=
  match rows with
  | [] => []
  | ScanFailed err :: _ => [ScanFailed err]
  | ScanDone some :: rows' => ScanDone some :: rows_read rows'
  end.

(** What one row adds to the trace. *)
Definition row_events (row : scanned) : list event :=
  match loop_body row [] with
  | Ok evs => evs
  | Fault _ => []
  end.

Definition is_logged (e : event) : bool :=
  match e with
  | Logged _ => true
  | Called_AsResolution _ => false
  end.

Definition is_call (e : event) : bool :=
  match e with
  | Called_AsResolution _ => true
  | Logged _ => false
  end.

(** The row holds a composite value. *)
Definition has_composite (row : scanned) : bool :=
  match row with
  | ScanDone (Some _) => true
  | _ => false
  end.

(** A row of the first version as the version with the transfer value
    receives it: the value with all three fields present. *)
Definition with_transfer_value (row : scanned_value) : scanned :=
  match row with
  | ValueFailed err => ScanFailed err
  | ValueDone r => ScanDone (Some (Spec.dto_of r))
  end.

(** The code point that [%c] writes for a scan value. *)
Definition shown_scan (s : Z) : Z := if Spec.is_charb s then s else 65533.

(** Two fields of transfer values that the conversion cannot tell apart. *)
Definition same_or_default (dflt : Z) (p q : option Z) : Prop :=
  match p, q with
  | Some a, Some b => a = b
  | Some a, None => a = dflt
  | None, Some b => b = dflt
  | None, None => True
  end.

(** * Properties

    ** Decimal notation: the digit loop of [fmtInteger] against the printer
       of the Standard Library *)

Section Decimal.

Lemma append_assoc (a b c : string) : ((a ++ b) ++ c = a ++ (b ++ c))%string.
Proof. induction a as [|x a IH]; simpl; [reflexivity | now rewrite IH]. Qed.

Lemma sou_revapp (x acc : Decimal.uint) :
  NilEmpty.string_of_uint (Decimal.revapp x acc)
  = (NilEmpty.string_of_uint (Decimal.revapp x Decimal.Nil) ++ NilEmpty.string_of_uint acc)%string.
Proof.
  revert acc.
  induction x as [|x IH|x IH|x IH|x IH|x IH|x IH|x IH|x IH|x IH|x IH]; intro acc; simpl;
    [reflexivity | rewrite IH; symmetry; rewrite IH, append_assoc; reflexivity ..].
Qed.

Lemma to_lu_digit (q d : N) :
  (0 < q)%N -> (d < 10)%N ->
  DecimalPos.Unsigned.to_lu (10 * q + d) = digit_cons d (DecimalPos.Unsigned.to_lu q).
Proof.
  intros Hq Hd.
  destruct q as [|p]; [lia|].
  assert (E : forall k : nat, (k < 10)%nat ->
            DecimalPos.Unsigned.to_lu (10 * N.pos p + N.of_nat k)
            = digit_cons (N.of_nat k) (DecimalPos.Unsigned.to_lu (N.pos p))).
  { induction k as [|k IH]; intro Hk.
    - rewrite N.add_0_r. apply DecimalPos.Unsigned.to_ldec_tenfold.
    - rewrite Nat2N.inj_succ, N.add_succ_r, DecimalPos.Unsigned.to_lu_succ, IH by lia.
      do 10 (destruct k as [|k]; [first [reflexivity | lia]|]). lia. }
  specialize (E (N.to_nat d)). rewrite N2Nat.id in E. apply E. lia.
Qed.

Lemma udec_rev (n : N) :
  udec n = NilEmpty.string_of_uint (Decimal.rev (DecimalPos.Unsigned.to_lu n)).
Proof.
  destruct n as [|p]; [reflexivity|].
  unfold udec; simpl. fold (Pos.to_uint p).
  pose proof (DecimalPos.Unsigned.to_uint_nonnil p) as Hn.
  destruct (Pos.to_uint p); [congruence | reflexivity ..].
Qed.

Lemma small_cases (d : N) :
  (d < 10)%N ->
  (d = 0 \/ d = 1 \/ d = 2 \/ d = 3 \/ d = 4 \/ d = 5 \/ d = 6 \/ d = 7 \/ d = 8 \/ d = 9)%N.
Proof. lia. Qed.

Ltac digit_cases d H :=
  let C := fresh "C" in
  pose proof (small_cases d H) as C;
  repeat (destruct C as [C|C]; [subst d|]); [.. | subst d].

Lemma udec_small (d : N) :
  (d < 10)%N -> udec d = String (chr (48 + Z.of_N d)) EmptyString.
Proof. intro H. digit_cases d H; reflexivity. Qed.

Lemma udec_step (q d : N) :
  (0 < q)%N -> (d < 10)%N ->
  udec (10 * q + d) = (udec q ++ String (chr (48 + Z.of_N d)) EmptyString)%string.
Proof.
  intros Hq Hd.
  rewrite !udec_rev, to_lu_digit by assumption.
  transitivity (NilEmpty.string_of_uint
                  (Decimal.revapp (DecimalPos.Unsigned.to_lu q) (digit_cons d Decimal.Nil))).
  - digit_cases d Hd; reflexivity.
  - rewrite sou_revapp. unfold Decimal.rev. f_equal.
    digit_cases d Hd; reflexivity.
Qed.

Lemma get_ldigits (u : Z) :
  0 <= u < 10 -> String.get (Z.to_nat u) fmt.ldigits = Some (chr (48 + u)).
Proof.
  intro H.
  assert (C : (Z.to_N u < 10)%N) by lia.
  replace u with (Z.of_N (Z.to_N u)) by lia.
  generalize dependent (Z.to_N u). clear. intros d C.
  digit_cases d C; reflexivity.
Qed.

Lemma byte_uint64_small (x : Z) : 0 <= x < 256 -> byte (uint64 x) = x.
Proof.
  intro H. unfold byte, uint64.
  change (2 ^ 8) with 256; change (2 ^ 64) with 18446744073709551616.
  rewrite (Z.mod_small x) by lia. apply Z.mod_small; lia.
Qed.

Lemma digit_loop_done (i : nat) (u : Z) (tail : string) :
  u < 10 -> fmt.digit_loop i u tail = Ok (i, u, tail).
Proof.
  intro H. destruct i; simpl; destruct (Z.leb_spec 10 u); (lia || reflexivity).
Qed.

Lemma digit_loop_more (i : nat) (u : Z) (tail : string) :
  10 <= u ->
  fmt.digit_loop (S i) u tail
  = fmt.digit_loop i (u / 10)
      (String (chr (byte (uint64 (48 + u - u / 10 * 10)))) tail).
Proof.
  intro H. simpl. destruct (Z.leb_spec 10 u); [reflexivity | lia].
Qed.

Lemma digit_loop_spec (n : nat) :
  forall (i : nat) (u : Z) (tail : string),
    0 <= u < 10 ^ (Z.of_nat n + 1) -> (n <= i)%nat ->
    exists (i' : nat) (u' : Z) (tail' : string),
      fmt.digit_loop i u tail = Ok (i', u', tail')
      /\ 0 <= u' < 10
      /\ (i <= i' + n)%nat
      /\ String (chr (48 + u')) tail' = (udec (Z.to_N u) ++ tail)%string.
Proof.
  induction n as [|n IH]; intros i u tail Hu Hi.
  - exists i, u, tail. change (10 ^ (Z.of_nat 0 + 1)) with 10 in Hu.
    rewrite digit_loop_done by lia.
    rewrite udec_small by lia. rewrite Z2N.id by lia.
    repeat split; (lia || reflexivity).
  - destruct (Z_lt_le_dec u 10) as [Hlt|Hge].
    + exists i, u, tail.
      rewrite digit_loop_done by lia.
      rewrite udec_small by lia. rewrite Z2N.id by lia.
      repeat split; (lia || reflexivity).
    + destruct i as [|i]; [lia|].
      rewrite digit_loop_more by assumption.
      assert (Hq : 0 <= u / 10 < 10 ^ (Z.of_nat n + 1)).
      { replace (Z.of_nat (S n) + 1) with (Z.succ (Z.of_nat n + 1)) in Hu by lia.
        rewrite Z.pow_succ_r in Hu by lia.
        split; [apply Z.div_pos; lia | apply Z.div_lt_upper_bound; lia]. }
      destruct (IH i (u / 10) (String (chr (byte (uint64 (48 + u - u / 10 * 10)))) tail) Hq)
        as (i' & u' & tail' & E & Hu' & Hi' & Hs); [lia|].
      exists i', u', tail'. rewrite E, Hs.
      repeat split; try lia.
      assert (Hd : 0 <= u mod 10 < 10) by (apply Z.mod_pos_bound; lia).
      assert (Hm : u = 10 * (u / 10) + u mod 10) by (apply Z.div_mod; lia).
      replace (48 + u - u / 10 * 10) with (48 + u mod 10) by lia.
      replace (byte (uint64 (48 + u mod 10))) with (48 + u mod 10).
      2:{ symmetry. apply byte_uint64_small. lia. }
      replace (Z.to_N u) with (10 * Z.to_N (u / 10) + Z.to_N (u mod 10))%N by lia.
      rewrite udec_step by lia.
      rewrite append_assoc. simpl. rewrite Z2N.id by lia. reflexivity.
Qed.

Lemma append_nil_r (a : string) : (a ++ "")%string = a.
Proof. induction a as [|x a IH]; simpl; [reflexivity | now rewrite IH]. Qed.

Lemma int64_uint64 (v : Z) : is_int v -> int64 (uint64 v) = v.
Proof.
  unfold is_int, int64, uint64.
  change (2 ^ 63) with 9223372036854775808; change (2 ^ 64) with 18446744073709551616.
  intro H. Z.to_euclidean_division_equations. lia.
Qed.

Lemma uint64_int64 (v : Z) : uint64 (int64 v) = uint64 v.
Proof.
  unfold int64, uint64.
  change (2 ^ 63) with 9223372036854775808; change (2 ^ 64) with 18446744073709551616.
  Z.to_euclidean_division_equations. lia.
Qed.

Lemma int64_is_int (v : Z) : is_int (int64 v).
Proof.
  unfold is_int, int64.
  change (2 ^ 63) with 9223372036854775808; change (2 ^ 64) with 18446744073709551616.
  Z.to_euclidean_division_equations. lia.
Qed.

Lemma uint64_abs (v : Z) :
  is_int v -> (if v <? 0 then uint64 (- uint64 v) else uint64 v) = Z.abs v.
Proof.
  unfold is_int, uint64.
  change (2 ^ 63) with 9223372036854775808; change (2 ^ 64) with 18446744073709551616.
  intro H. destruct (Z.ltb_spec v 0); Z.to_euclidean_division_equations; lia.
Qed.

Lemma decimal_sign (v : Z) :
  Spec.decimal v
  = if v <? 0 then String "-" (udec (Z.to_N (Z.abs v))) else udec (Z.to_N (Z.abs v)).
Proof. destruct v as [|p|p]; reflexivity. Qed.

Lemma fmtInteger_int (v : Z) :
  is_int v -> fmt.fmtInteger (uint64 v) true = Ok (Spec.decimal v).
Proof.
  intro H. unfold fmt.fmtInteger.
  rewrite int64_uint64 by assumption. rewrite andb_true_l.
  rewrite (uint64_abs v H), decimal_sign.
  assert (Hb : 0 <= Z.abs v < 10 ^ (Z.of_nat 19 + 1)).
  { unfold is_int in H. change (2 ^ 63) with 9223372036854775808 in H.
    change (10 ^ (Z.of_nat 19 + 1)) with 100000000000000000000. lia. }
  destruct (digit_loop_spec 19 fmt.intbuf_len (Z.abs v) EmptyString Hb)
    as (i & u & tail & E & Hu & Hi & Hs); [unfold fmt.intbuf_len; lia|].
  rewrite E. cbn [bind]. rewrite get_ldigits by assumption. cbn [bind].
  unfold fmt.intbuf_len in Hi.
  destruct i as [|[|i]]; [lia | lia |].
  rewrite append_nil_r in Hs.
  destruct (v <? 0); cbn [bind fmt.store fst snd]; rewrite Hs; reflexivity.
Qed.

Lemma fmtInteger_signed (v : Z) :
  fmt.fmtInteger (uint64 v) true = Ok (Spec.decimal (int64 v)).
Proof.
  rewrite <- uint64_int64. apply fmtInteger_int, int64_is_int.
Qed.
End Decimal.

(** ** Characters: [utf8.AppendRune] against UTF-8 written with division *)

Section Utf8.

Lemma lor_tx (q : Z) : 0 <= q < 64 -> Z.lor utf8.tx q = 128 + q.
Proof.
  intro H. replace q with (Z.of_nat (Z.to_nat q)) by lia.
  assert (Hn : (Z.to_nat q < 64)%nat) by lia.
  generalize dependent (Z.to_nat q). clear. intros n Hn. do 64 (destruct n as [|n]; [reflexivity|]). lia.
Qed.

Lemma lor_t2 (q : Z) : 0 <= q < 32 -> Z.lor utf8.t2 q = 192 + q.
Proof.
  intro H. replace q with (Z.of_nat (Z.to_nat q)) by lia.
  assert (Hn : (Z.to_nat q < 32)%nat) by lia.
  generalize dependent (Z.to_nat q). clear. intros n Hn. do 32 (destruct n as [|n]; [reflexivity|]). lia.
Qed.

Lemma lor_t3 (q : Z) : 0 <= q < 16 -> Z.lor utf8.t3 q = 224 + q.
Proof.
  intro H. replace q with (Z.of_nat (Z.to_nat q)) by lia.
  assert (Hn : (Z.to_nat q < 16)%nat) by lia.
  generalize dependent (Z.to_nat q). clear. intros n Hn. do 16 (destruct n as [|n]; [reflexivity|]). lia.
Qed.

Lemma lor_t4 (q : Z) : 0 <= q < 8 -> Z.lor utf8.t4 q = 240 + q.
Proof.
  intro H. replace q with (Z.of_nat (Z.to_nat q)) by lia.
  assert (Hn : (Z.to_nat q < 8)%nat) by lia.
  generalize dependent (Z.to_nat q). clear. intros n Hn. do 8 (destruct n as [|n]; [reflexivity|]). lia.
Qed.

Lemma byte_small (x : Z) : 0 <= x < 256 -> byte x = x.
Proof. intro H. unfold byte. change (2 ^ 8) with 256. apply Z.mod_small; lia. Qed.

(** [tx | byte(x)&maskx] is the continuation byte of the low six bits. *)
Lemma continuation (x : Z) :
  Z.lor utf8.tx (Z.land (byte x) utf8.maskx) = 128 + x mod 64.
Proof.
  change utf8.maskx with (Z.ones 6).
  rewrite Z.land_ones by lia. unfold byte.
  change (2 ^ 8) with 256; change (2 ^ 6) with 64.
  replace ((x mod 256) mod 64) with (x mod 64)
    by (Z.to_euclidean_division_equations; lia).
  apply lor_tx. apply Z.mod_pos_bound. lia.
Qed.

Lemma shiftr_div (x : Z) (k : Z) : 0 <= k -> Z.shiftr x k = x / 2 ^ k.
Proof. intro H. apply Z.shiftr_div_pow2. assumption. Qed.


Ltac decide_tests :=
  repeat match goal with
         | |- context [?a <=? ?b] => destruct (Z.leb_spec a b); try lia
         | |- context [?a <? ?b] => destruct (Z.ltb_spec a b); try lia
         end.

Lemma uint32_small (r : Z) : 0 <= r < 4294967296 -> uint32 r = r.
Proof. intro H. unfold uint32. change (2 ^ 32) with 4294967296. apply Z.mod_small; lia. Qed.

Lemma AppendRune_valid (r : Z) :
  0 <= r <= utf8.MaxRune ->
  utf8.AppendRune [] r = Spec.utf8_bytes (if Spec.is_charb r then r else 65533).
Proof.
  unfold utf8.MaxRune. intro H.
  unfold utf8.AppendRune, utf8.appendRuneNonASCII, Spec.is_charb.
  rewrite uint32_small by lia.
  unfold utf8.rune1Max, utf8.rune2Max, utf8.rune3Max, utf8.MaxRune,
    utf8.surrogateMin, utf8.surrogateMax.
  decide_tests; cbn [andb orb negb app]; unfold Spec.utf8_bytes, utf8.three; decide_tests.
  all: try reflexivity.
  all: rewrite ?continuation, ?shiftr_div by lia;
    change (2 ^ 6) with 64; change (2 ^ 12) with 4096; change (2 ^ 18) with 262144;
    rewrite ?byte_small by (Z.to_euclidean_division_equations; lia);
    rewrite ?lor_t2, ?lor_t3, ?lor_t4 by (Z.to_euclidean_division_equations; lia);
    reflexivity.
Qed.

Lemma int32_uint64 (s : Z) : is_rune s -> int32 (uint64 s) = s.
Proof.
  unfold is_rune, int32, uint64.
  change (2 ^ 31) with 2147483648; change (2 ^ 32) with 4294967296;
    change (2 ^ 64) with 18446744073709551616.
  intro H. Z.to_euclidean_division_equations. lia.
Qed.

Lemma fmtC_rune (s : Z) :
  is_rune s -> fmt.fmtC (uint64 s) = Ok (Spec.char_text s).
Proof.
  intro H. unfold fmt.fmtC, Spec.char_text. f_equal. f_equal.
  rewrite int32_uint64 by assumption.
  unfold is_rune in H. change (2 ^ 31) with 2147483648 in H.
  destruct (Z.ltb_spec utf8.MaxRune (uint64 s)) as [Hgt|Hle].
  - assert (Hc : Spec.is_charb s = false).
    { unfold Spec.is_charb. unfold utf8.MaxRune, uint64 in Hgt.
      change (2 ^ 64) with 18446744073709551616 in Hgt.
      destruct (Z.leb_spec 0 s); [|reflexivity].
      rewrite Z.mod_small in Hgt by lia.
      destruct (Z.leb_spec s 1114111); [lia | reflexivity]. }
    rewrite Hc. reflexivity.
  - assert (Hs : 0 <= s <= utf8.MaxRune).
    { unfold utf8.MaxRune, uint64 in *.
      change (2 ^ 64) with 18446744073709551616 in Hle.
      Z.to_euclidean_division_equations. lia. }
    apply AppendRune_valid. assumption.
Qed.

End Utf8.

(** ** [Resolution.String] against the rendering of the specification *)

Section Rendering.

Lemma String_rendering (r : Resolution) :
  wf_Resolution r -> Resolution_String r = Ok (Spec.rendering r).
Proof.
  intros (Hw & Hh & Hs).
  unfold Resolution_String, fmt.Sprintf.
  cbn -[fmt.fmtInteger fmt.fmtC uint64].
  rewrite !fmtInteger_int, fmtC_rune by assumption.
  cbn [bind fmap]. rewrite append_nil_r. reflexivity.
Qed.

Lemma String_total (r : Resolution) :
  exists s, Resolution_String r = Ok s.
Proof.
  unfold Resolution_String, fmt.Sprintf.
  cbn -[fmt.fmtInteger fmt.fmtC uint64].
  rewrite !fmtInteger_signed. unfold fmt.fmtC. cbn [bind fmap]. eexists. reflexivity.
Qed.

Lemma uint_chars (d : Decimal.uint) :
  all_chars sign_or_digit (NilEmpty.string_of_uint d) = true.
Proof. induction d; simpl; auto. Qed.

Lemma decimal_chars (z : Z) : all_chars sign_or_digit (Spec.decimal z) = true.
Proof.
  unfold Spec.decimal.
  destruct (Z.to_int z) as [d|d]; simpl; destruct d; simpl; auto using uint_chars.
Qed.

Lemma decimal_inj (a b : Z) : Spec.decimal a = Spec.decimal b -> a = b.
Proof.
  unfold Spec.decimal. intro E.
  apply DecimalZ.to_int_inj.
  assert (P : forall z, NilZero.int_of_string (NilZero.string_of_int (Z.to_int z))
                        = Some (Z.to_int z)).
  { intro z. apply NilZero.isi; destruct z as [|p|p]; simpl; try discriminate;
      intros [= Hn]; exact (DecimalPos.Unsigned.to_uint_nonnil p Hn). }
  pose proof (P a) as Pa. rewrite E, P in Pa. congruence.
Qed.

(** A string is cut in one way only at the first character outside [p]. *)
Lemma cut_unique (p : ascii -> bool) (x : ascii) :
  p x = false ->
  forall s1 s2 t1 t2 : string,
    all_chars p s1 = true -> all_chars p s2 = true ->
    (s1 ++ String x t1)%string = (s2 ++ String x t2)%string ->
    s1 = s2 /\ t1 = t2.
Proof.
  intro Hx.
  induction s1 as [|c s1 IH]; intros [|c' s2] t1 t2 H1 H2 E; simpl in *.
  - injection E as ->. auto.
  - injection E as -> _. apply andb_prop in H2. destruct H2; congruence.
  - injection E as -> _. apply andb_prop in H1. destruct H1; congruence.
  - injection E as -> E.
    apply andb_prop in H1; apply andb_prop in H2.
    destruct (IH s2 t1 t2) as [-> ->]; tauto.
Qed.

Lemma rendering_inj (r1 r2 : Resolution) :
  Spec.rendering r1 = Spec.rendering r2 ->
  Width r1 = Width r2 /\ Height r1 = Height r2
  /\ Spec.char_text (Scan r1) = Spec.char_text (Scan r2).
Proof.
  unfold Spec.rendering. simpl. intros [= E].
  apply (cut_unique sign_or_digit ","%char eq_refl) in E; auto using decimal_chars.
  destruct E as [Ew [= E]].
  apply (cut_unique sign_or_digit "]"%char eq_refl) in E; auto using decimal_chars.
  destruct E as [Eh [= E]].
  auto using decimal_inj.
Qed.

End Rendering.

(** ** The text of a character determines the character *)

Section Characters.

Lemma chr_inj (a b : Z) : 0 <= a < 256 -> 0 <= b < 256 -> chr a = chr b -> a = b.
Proof.
  unfold chr. intros Ha Hb E.
  apply (f_equal N_of_ascii) in E.
  rewrite !N_ascii_embedding in E by lia. lia.
Qed.

Lemma bytes_string_inj (l1 l2 : list Z) :
  bytes_ok l1 -> bytes_ok l2 -> bytes_string l1 = bytes_string l2 -> l1 = l2.
Proof.
  intro H1. revert l2.
  induction H1 as [|a l1 Ha H1 IH]; intros l2 H2 E; destruct H2 as [|b l2 Hb H2];
    simpl in E; try discriminate; [reflexivity|].
  injection E as Ec E. f_equal; [apply chr_inj; assumption | apply IH; assumption].
Qed.

Lemma cons_eq {A : Type} (a b : A) (l m : list A) :
  a :: l = b :: m -> a = b /\ l = m.
Proof. intros [= -> ->]. auto. Qed.

Lemma utf8_bytes_ok (c : Z) : 0 <= c <= 1114111 -> bytes_ok (Spec.utf8_bytes c).
Proof.
  intro H. unfold Spec.utf8_bytes, bytes_ok.
  destruct (Z.ltb_spec c 128); [|destruct (Z.ltb_spec c 2048); [|destruct (Z.ltb_spec c 65536)]];
    repeat constructor; Z.to_euclidean_division_equations; lia.
Qed.

Lemma utf8_bytes_inj (c1 c2 : Z) :
  0 <= c1 <= 1114111 -> 0 <= c2 <= 1114111 ->
  Spec.utf8_bytes c1 = Spec.utf8_bytes c2 -> c1 = c2.
Proof.
  intros H1 H2. unfold Spec.utf8_bytes.
  destruct (Z.ltb_spec c1 128); [|destruct (Z.ltb_spec c1 2048); [|destruct (Z.ltb_spec c1 65536)]];
    (destruct (Z.ltb_spec c2 128); [|destruct (Z.ltb_spec c2 2048); [|destruct (Z.ltb_spec c2 65536)]]);
    intro E; try discriminate E;
    repeat (apply cons_eq in E; destruct E as [? E]);
    Z.to_euclidean_division_equations; lia.
Qed.

Lemma is_charb_spec (c : Z) : Spec.is_charb c = true <-> Spec.is_char c.
Proof.
  unfold Spec.is_charb, Spec.is_char.
  destruct (Z.leb_spec 0 c), (Z.leb_spec c 1114111), (Z.leb_spec 55296 c),
    (Z.leb_spec c 57343); simpl; split; (lia || discriminate || reflexivity).
Qed.

Lemma is_char_rune (c : Z) : Spec.is_char c -> is_rune c.
Proof. unfold Spec.is_char, is_rune. lia. Qed.

Lemma char_text_inj (c1 c2 : Z) :
  Spec.is_char c1 -> Spec.is_char c2 ->
  Spec.char_text c1 = Spec.char_text c2 -> c1 = c2.
Proof.
  intros H1 H2. unfold Spec.char_text.
  rewrite (proj2 (is_charb_spec c1) H1), (proj2 (is_charb_spec c2) H2).
  destruct H1 as [H1 _], H2 as [H2 _]. intro E.
  apply utf8_bytes_inj; try assumption.
  apply bytes_string_inj; auto using utf8_bytes_ok.
Qed.

End Characters.


(** ** The mapper *)

Section Mapper.

Lemma Ok_inj {A : Type} (a b : A) : Ok a = Ok b -> a = b.
Proof. intros [= ->]. reflexivity. Qed.

(** What [AsResolution] leaves in its frame, for every transfer value. *)
Lemma AsResolution_frame_eq (d : resolutionDTO) :
  AsResolution_frame d
  = Ok {| result :=
            {| Width := match dtoWidth d with Some w => w | None => 0 end;
               Height := match dtoHeight d with Some h => h | None => 0 end;
               Scan := match dtoScan d with Some s => s | None => rune_P end |};
          assigned := [FWidth; FHeight; FScan] |}.
Proof. destruct d as [[w|] [h|] [s|]]; reflexivity. Qed.

Lemma AsResolution_eq (d : resolutionDTO) :
  AsResolution d
  = Ok {| Width := match dtoWidth d with Some w => w | None => 0 end;
          Height := match dtoHeight d with Some h => h | None => 0 end;
          Scan := match dtoScan d with Some s => s | None => rune_P end |}.
Proof. unfold AsResolution. rewrite AsResolution_frame_eq. reflexivity. Qed.

(** The conversion keeps values inside the Go types. *)
Lemma AsResolution_wf (d : resolutionDTO) (r : Resolution) :
  wf_DTO d -> AsResolution d = Ok r -> wf_Resolution r.
Proof.
  rewrite AsResolution_eq. intros (Hw & Hh & Hs) [= <-].
  destruct d as [[w|] [h|] [s|]]; simpl in *;
    unfold wf_Resolution, is_int, is_rune, rune_P in *; simpl; lia.
Qed.

Lemma AsResolution_total_value (d : resolutionDTO) :
  exists r : Resolution, AsResolution d = Ok r.
Proof. rewrite AsResolution_eq. eexists. reflexivity. Qed.

End Mapper.

(** C1: for every transfer value, whatever subset of its three fields is
    absent, [AsResolution] returns the domain value in which an absent width
    is 0, an absent height is 0, an absent scan-mode is ['P'], and every
    present field has the value it had in the transfer value. *)
Theorem AsResolution_defaults (d : resolutionDTO) :
  AsResolution d
  = Ok {| Width := match dtoWidth d with Some w => w | None => 0 end;
          Height := match dtoHeight d with Some h => h | None => 0 end;
          Scan := match dtoScan d with Some s => s | None => 80 (* 'P' *) end |}.
Proof. exact (AsResolution_eq d). Qed.

(** C3: with all three fields present the domain value is the transfer
    value's fields verbatim; hence converting the all-present transfer value
    built from an already converted domain value gives the same domain value
    again. *)
Theorem AsResolution_present_idempotent :
  (forall w h s : Z,
      AsResolution {| dtoWidth := Some w; dtoHeight := Some h; dtoScan := Some s |}
      = Ok {| Width := w; Height := h; Scan := s |})
  /\ (forall d : resolutionDTO,
         (r <- AsResolution d ;; AsResolution (Spec.dto_of r)) = AsResolution d).
Proof.
  split.
  - intros w h s. apply AsResolution_eq.
  - intro d. rewrite (AsResolution_eq d). cbn [bind].
    rewrite AsResolution_eq. reflexivity.
Qed.

(** C4: [AsResolution] is total and cannot fail: for each of the eight
    combinations of present and absent fields it returns a domain value, and
    no execution ends in a fault; in particular no pointer is dereferenced
    while it is nil. *)
Theorem AsResolution_total (d : resolutionDTO) :
  (exists r : Resolution, AsResolution d = Ok r)
  /\ (forall f : fault, AsResolution d <> Fault f).
Proof.
  rewrite AsResolution_eq. split; [eexists; reflexivity | discriminate].
Qed.

(** C6: the domain value that [AsResolution] returns is never partially
    populated: on every path each of the three fields is assigned, once, and
    holds the transfer value's field or the default of 0, 0 and ['P']. *)
Theorem AsResolution_fully_populated (d : resolutionDTO) :
  exists fr : frame,
    AsResolution_frame d = Ok fr
    /\ AsResolution d = Ok (result fr)
    /\ assigned fr = [FWidth; FHeight; FScan]
    /\ Width (result fr) = match dtoWidth d with Some w => w | None => 0 end
    /\ Height (result fr) = match dtoHeight d with Some h => h | None => 0 end
    /\ Scan (result fr) = match dtoScan d with Some s => s | None => 80 (* 'P' *) end.
Proof.
  eexists. split; [apply AsResolution_frame_eq|].
  split; [apply AsResolution_eq|]. repeat split.
Qed.

(** C9: the conversion is not injective: the transfer value with all three
    fields absent and the one that holds 0, 0 and ['P'] are different and
    convert to the same domain value. *)
Theorem AsResolution_not_injective :
  {| dtoWidth := None; dtoHeight := None; dtoScan := None |}
  <> {| dtoWidth := Some 0; dtoHeight := Some 0; dtoScan := Some rune_P |}
  /\ AsResolution {| dtoWidth := None; dtoHeight := None; dtoScan := None |}
     = Ok {| Width := 0; Height := 0; Scan := rune_P |}
  /\ AsResolution {| dtoWidth := Some 0; dtoHeight := Some 0; dtoScan := Some rune_P |}
     = Ok {| Width := 0; Height := 0; Scan := rune_P |}.
Proof. repeat split; discriminate. Qed.

(** ** The rendering *)

(** C2: for every [Resolution] value, [String] returns exactly
    ["[" + width + ", " + height + "] at " + scan]: width, then height, both
    in decimal notation and separated by a comma and a space, then the text
    [" at "] and the scan character; [{10, 10, 'P'}] gives ["[10, 10] at P"]. *)
Theorem String_format (r : Resolution) :
  wf_Resolution r ->
  Resolution_String r
  = Ok ("[" ++ Spec.decimal (Width r) ++ ", " ++ Spec.decimal (Height r)
            ++ "] at " ++ Spec.char_text (Scan r))%string
  /\ Resolution_String {| Width := 10; Height := 10; Scan := rune_P |}
     = Ok "[10, 10] at P"%string.
Proof.
  intro H. split; [exact (String_rendering r H) | reflexivity].
Qed.

Lemma String_format_witness :
  wf_Resolution {| Width := 1920; Height := 1080; Scan := 73 |}
  /\ Resolution_String {| Width := 1920; Height := 1080; Scan := 73 |}
     = Ok "[1920, 1080] at I"%string.
Proof.
  assert (H : wf_Resolution {| Width := 1920; Height := 1080; Scan := 73 |})
    by (unfold wf_Resolution, is_int, is_rune; simpl; lia).
  split; [exact H | exact (proj1 (String_format _ H))].
Defined.



(** C8: rendering is deterministic: [String] on equal [Resolution] values
    returns equal strings (and does return one). *)
Theorem String_deterministic (r1 r2 : Resolution) :
  r1 = r2 ->
  exists s : string, Resolution_String r1 = Ok s /\ Resolution_String r2 = Ok s.
Proof.
  intros <-. destruct (String_total r1) as [s E]. exists s. split; exact E.
Qed.

Lemma String_deterministic_witness :
  {| Width := 640; Height := 480; Scan := rune_P |}
  = {| Width := 640; Height := 480; Scan := 80 |}
  /\ exists s : string,
      Resolution_String {| Width := 640; Height := 480; Scan := rune_P |} = Ok s
      /\ Resolution_String {| Width := 640; Height := 480; Scan := 80 |} = Ok s.
Proof.
  split; [reflexivity|].
  apply (String_deterministic {| Width := 640; Height := 480; Scan := rune_P |}
                              {| Width := 640; Height := 480; Scan := 80 |}).
  reflexivity.
Defined.

(** C10, as stated, fails: a scan value that is not the code point of a
    character is printed by [%c] as U+FFFD, so the two different values
    [{0, 0, 0xD800}] and [{0, 0, 0xFFFD}] render to the same string. *)
Lemma String_collision :
  wf_Resolution {| Width := 0; Height := 0; Scan := 55296 |}
  /\ wf_Resolution {| Width := 0; Height := 0; Scan := 65533 |}
  /\ {| Width := 0; Height := 0; Scan := 55296 |}
     <> {| Width := 0; Height := 0; Scan := 65533 |}
  /\ Resolution_String {| Width := 0; Height := 0; Scan := 55296 |}
     = Resolution_String {| Width := 0; Height := 0; Scan := 65533 |}.
Proof.
  repeat split; try discriminate; try reflexivity;
    unfold is_int, is_rune; simpl; lia.
Qed.

(** C10, amended: [String] is injective on the domain values whose scan is
    the code point of a character (U+0000 to U+10FFFF, no surrogate): two
    such values that differ in width, height or scan render to different
    strings. *)
Theorem String_injective_on_characters (r1 r2 : Resolution) :
  is_int (Width r1) -> is_int (Height r1) -> Spec.is_char (Scan r1) ->
  is_int (Width r2) -> is_int (Height r2) -> Spec.is_char (Scan r2) ->
  r1 <> r2 ->
  Resolution_String r1 <> Resolution_String r2.
Proof.
  intros Hw1 Hh1 Hs1 Hw2 Hh2 Hs2 Hne E. apply Hne.
  rewrite !String_rendering in E
    by (split; [|split]; try assumption; apply is_char_rune; assumption).
  apply Ok_inj, rendering_inj in E. destruct E as (Ew & Eh & Es).
  apply char_text_inj in Es; try assumption.
  destruct r1, r2; simpl in *; congruence.
Qed.

Lemma String_injective_on_characters_witness :
  {| Width := 1280; Height := 720; Scan := rune_P |}
  <> {| Width := 1280; Height := 720; Scan := 73 |}
  /\ Resolution_String {| Width := 1280; Height := 720; Scan := rune_P |}
     <> Resolution_String {| Width := 1280; Height := 720; Scan := 73 |}.
Proof.
  assert (Hne : {| Width := 1280; Height := 720; Scan := rune_P |}
                <> {| Width := 1280; Height := 720; Scan := 73 |}) by discriminate.
  split; [exact Hne|].
  apply String_injective_on_characters;
    [unfold is_int; simpl; lia | unfold is_int; simpl; lia
    | unfold Spec.is_char, rune_P; simpl; lia
    | unfold is_int; simpl; lia | unfold is_int; simpl; lia
    | unfold Spec.is_char; simpl; lia
    | exact Hne].
Defined.

(** ** The read loop *)

(** C5: when the driver reports no composite value for a row ([some] is
    nil), [AsResolution] is not called and no domain value is made up: the
    only thing the loop body does is log ["No defined resolution"].  For a
    composite that is there it calls the mapper once and logs ["Got "]
    followed by the rendering of the domain value. *)
Theorem whole_value_absence :
  (forall tr : list event,
      loop_body (ScanDone None) tr = Ok (tr ++ [Logged "No defined resolution"]))
  /\ (forall (d : resolutionDTO) (tr : list event),
         exists (r : Resolution) (s : string),
           AsResolution d = Ok r
           /\ Resolution_String r = Ok s
           /\ loop_body (ScanDone (Some d)) tr
              = Ok (tr ++ [Called_AsResolution d; Logged ("Got " ++ s)])).
Proof.
  split.
  - intro tr. reflexivity.
  - intros d tr.
    destruct (AsResolution_total_value d) as [r Er].
    destruct (String_total r) as [s Es].
    exists r, s. split; [exact Er|]. split; [exact Es|].
    unfold loop_body, call_AsResolution, log_Printf, fmt.Sprintf.
    cbn [is_nil negb deref bind]. rewrite Er. cbn [bind fst snd].
    cbn -[Resolution_String]. rewrite Es. cbn [bind fmap].
    rewrite append_nil_r, <- app_assoc. reflexivity.
Qed.

(** The four rows of table [foo] in the comment at the head of the program:
    [(10, 10, 'P')], [null], [(-10, 10, 'P')] and [(10, 10, null)]. *)
Example read_loop_table_foo :
  read_loop
    [ ScanDone (Some {| dtoWidth := Some 10; dtoHeight := Some 10; dtoScan := Some rune_P |});
      ScanDone None;
      ScanDone (Some {| dtoWidth := Some (-10); dtoHeight := Some 10; dtoScan := Some rune_P |});
      ScanDone (Some {| dtoWidth := Some 10; dtoHeight := Some 10; dtoScan := None |}) ]
    []
  = Ok [ Called_AsResolution {| dtoWidth := Some 10; dtoHeight := Some 10; dtoScan := Some rune_P |};
         Logged "Got [10, 10] at P";
         Logged "No defined resolution";
         Called_AsResolution {| dtoWidth := Some (-10); dtoHeight := Some 10; dtoScan := Some rune_P |};
         Logged "Got [-10, 10] at P";
         Called_AsResolution {| dtoWidth := Some 10; dtoHeight := Some 10; dtoScan := None |};
         Logged "Got [10, 10] at P" ].
Proof. reflexivity. Qed.

(** * Further properties of the program *)

(** ** The read loops, row by row *)

Section ReadLoop.

Lemma Sprintf_error (pre : string) (err : string) :
  all_chars (fun c => negb (Ascii.eqb c "%")) pre = true ->
  fmt.Sprintf (pre ++ "%v") [fmt.AError err] = Ok (pre ++ err)%string.
Proof.
  unfold fmt.Sprintf. induction pre as [|c pre IH]; intro H.
  - cbn. rewrite append_nil_r. reflexivity.
  - simpl in H. apply andb_prop in H. destruct H as [Hc H].
    cbn [append fmt.doPrintf]. apply negb_true_iff in Hc. rewrite Hc.
    rewrite (IH H). reflexivity.
Qed.

Lemma Sprintf_Stringer (s : string) :
  fmt.Sprintf "Got %v" [fmt.AStringer (Ok s)] = Ok ("Got " ++ s)%string.
Proof. cbn. rewrite append_nil_r. reflexivity. Qed.

Lemma loop_body_failed (err : string) (tr : list event) :
  loop_body (ScanFailed err) tr = Ok (tr ++ [Logged ("Failed to scan: " ++ err)]).
Proof.
  unfold loop_body, log_Printf.
  pose proof (Sprintf_error "Failed to scan: " err eq_refl) as E.
  cbn [append] in E. rewrite E. reflexivity.
Qed.

Lemma loop_body_nil (tr : list event) :
  loop_body (ScanDone None) tr = Ok (tr ++ [Logged "No defined resolution"]).
Proof. reflexivity. Qed.

Lemma loop_body_some (d : resolutionDTO) (tr : list event) :
  exists (r : Resolution) (s : string),
    AsResolution d = Ok r /\ Resolution_String r = Ok s
    /\ loop_body (ScanDone (Some d)) tr
       = Ok (tr ++ [Called_AsResolution d; Logged ("Got " ++ s)]).
Proof.
  destruct (AsResolution_total_value d) as [r Er].
  destruct (String_total r) as [s Es].
  exists r, s. split; [exact Er|]. split; [exact Es|].
  unfold loop_body, call_AsResolution, log_Printf.
  cbn [is_nil negb deref bind]. rewrite Er. cbn [bind fst snd].
  rewrite Es, Sprintf_Stringer. cbn [bind]. rewrite <- app_assoc. reflexivity.
Qed.

Lemma loop_body_row_events (row : scanned) (tr : list event) :
  loop_body row tr = Ok (tr ++ row_events row).
Proof.
  unfold row_events. destruct row as [err|[d|]].
  - rewrite !loop_body_failed. reflexivity.
  - destruct (loop_body_some d tr) as (r & s & Er & Es & E).
    destruct (loop_body_some d []) as (r0 & s0 & Er0 & Es0 & E0).
    rewrite E0, E. simpl. congruence.
  - reflexivity.
Qed.

Lemma row_events_shape (row : scanned) :
  exists text : string,
    row_events row
    = match row with
      | ScanDone (Some d) => [Called_AsResolution d; Logged text]
      | _ => [Logged text]
      end.
Proof.
  unfold row_events. destruct row as [err|[d|]].
  - rewrite loop_body_failed. eexists. reflexivity.
  - destruct (loop_body_some d []) as (r & s & _ & _ & E). rewrite E. eexists. reflexivity.
  - eexists. reflexivity.
Qed.

Lemma read_loop_events (rows : list scanned) :
  forall tr : list event,
    read_loop rows tr = Ok (tr ++ List.concat (map row_events (rows_read rows))).
Proof.
  induction rows as [|row rows IH]; intro tr.
  - simpl. rewrite app_nil_r. reflexivity.
  - cbn [read_loop]. rewrite loop_body_row_events. cbn [bind].
    destruct row as [err|some]; cbn [rows_read map List.concat].
    + rewrite app_nil_r. reflexivity.
    + rewrite IH, app_assoc. reflexivity.
Qed.

Lemma rows_read_stop (rows1 rows2 : list scanned) (err : string) :
  rows_read (rows1 ++ ScanFailed err :: rows2) = rows_read (rows1 ++ [ScanFailed err]).
Proof.
  induction rows1 as [|row rows1 IH]; [reflexivity|].
  destruct row as [e|some]; simpl; [reflexivity | now rewrite IH].
Qed.

Lemma rows_read_length (rows : list scanned) :
  (List.length (rows_read rows) <= List.length rows)%nat.
Proof.
  induction rows as [|row rows IH]; [apply le_n|].
  destruct row as [e|some]; simpl; lia.
Qed.

Lemma loop_body_value_done (r : Resolution) (tr : list event) :
  exists s : string,
    Resolution_String r = Ok s
    /\ loop_body_value (ValueDone r) tr = Ok (tr ++ [Logged ("Got " ++ s)]).
Proof.
  destruct (String_total r) as [s Es]. exists s. split; [exact Es|].
  unfold loop_body_value, log_Printf. rewrite Es, Sprintf_Stringer. reflexivity.
Qed.

Lemma loop_body_value_failed (err : string) (tr : list event) :
  loop_body_value (ValueFailed err) tr = Ok (tr ++ [Logged ("Failed to scan: " ++ err)]).
Proof. exact (loop_body_failed err tr). Qed.

Lemma filter_logged_app (a b : list event) :
  filter is_logged (a ++ b) = filter is_logged a ++ filter is_logged b.
Proof. apply filter_app. Qed.

Lemma loops_agree_from (rows : list scanned_value) :
  forall tr0 tr0' : list event,
    filter is_logged tr0' = tr0 ->
    exists tr tr' : list event,
      read_loop_value rows tr0 = Ok tr
      /\ read_loop (map with_transfer_value rows) tr0' = Ok tr'
      /\ filter is_logged tr' = tr.
Proof.
  induction rows as [|row rows IH]; intros tr0 tr0' H0.
  - exists tr0, tr0'. repeat split. exact H0.
  - cbn [read_loop_value map read_loop]. destruct row as [err|r].
    + rewrite loop_body_value_failed. cbn [with_transfer_value].
      rewrite loop_body_failed. cbn [bind].
      eexists _, _. split; [reflexivity|]. split; [reflexivity|].
      rewrite filter_logged_app, H0. reflexivity.
    + destruct (loop_body_value_done r tr0) as (s & Es & E). rewrite E.
      cbn [with_transfer_value].
      destruct (loop_body_some (Spec.dto_of r) tr0') as (r' & s' & Er' & Es' & E').
      rewrite E'. cbn [bind].
      assert (r' = r).
      { rewrite AsResolution_eq in Er'. destruct r. simpl in Er'. congruence. }
      subst r'. assert (s' = s) by congruence. subst s'.
      apply IH. rewrite filter_logged_app, H0. reflexivity.
Qed.

End ReadLoop.

(** A scan that fails is logged with the driver's error, the mapper is not
    called for that row, and the loop ends there: the rows behind the failed
    one are not read, wherever in the result set the failure is. *)
Theorem failed_scan_is_logged_and_skipped (err : string) (rows1 rows2 : list scanned)
        (tr : list event) :
  read_loop (ScanFailed err :: rows2) tr
  = Ok (tr ++ [Logged ("Failed to scan: " ++ err)])
  /\ read_loop (rows1 ++ ScanFailed err :: rows2) tr
     = read_loop (rows1 ++ [ScanFailed err]) tr.
Proof.
  split.
  - cbn [read_loop]. rewrite loop_body_failed. reflexivity.
  - rewrite !read_loop_events, rows_read_stop. reflexivity.
Qed.

(** The read loop never panics and leaves what was logged before in place.
    It reads the rows up to the first failed scan: it hands the logger one
    line for each row read, and calls the mapper once for each row read that
    holds a composite value and for no other row. *)
Theorem read_loop_one_line_per_row (rows : list scanned) (tr : list event) :
  exists evs : list event,
    read_loop rows tr = Ok (tr ++ evs)
    /\ List.length (filter is_logged evs) = List.length (rows_read rows)
    /\ List.length (filter is_call evs)
       = List.length (filter has_composite (rows_read rows))
    /\ (List.length (rows_read rows) <= List.length rows)%nat.
Proof.
  exists (List.concat (map row_events (rows_read rows))).
  split; [apply read_loop_events|].
  split; [|split; [|apply rows_read_length]].
  - induction (rows_read rows) as [|row l IH]; [reflexivity|].
    cbn [map List.concat]. rewrite filter_app, List.length_app, IH.
    destruct (row_events_shape row) as [text E]. rewrite E.
    destruct row as [e|[d|]]; reflexivity.
  - induction (rows_read rows) as [|row l IH]; [reflexivity|].
    cbn [map List.concat]. rewrite filter_app, List.length_app, IH.
    destruct (row_events_shape row) as [text E]. rewrite E.
    destruct row as [e|[d|]]; reflexivity.
Qed.

(** The rows that are read are handled independently of each other: the
    trace of the loop is the earlier trace followed by what each row read
    adds by itself, in order, whatever was logged before it. *)
Theorem read_loop_rows_independent (rows : list scanned) (tr : list event) :
  read_loop rows tr = Ok (tr ++ List.concat (map row_events (rows_read rows))).
Proof. apply read_loop_events. Qed.

(** On rows without nulls the two versions of the program write the same
    log: the version with the transfer value, given each value with all three
    fields present, hands the logger the lines the first version does. *)
Theorem versions_write_the_same_log (rows : list scanned_value) :
  exists tr tr' : list event,
    read_loop_value rows [] = Ok tr
    /\ read_loop (map with_transfer_value rows) [] = Ok tr'
    /\ filter is_logged tr' = tr.
Proof. apply loops_agree_from. reflexivity. Qed.

(** ** More on the rendering *)

Section RenderingMore.

Lemma shown_scan_range (s : Z) : 0 <= shown_scan s <= 1114111.
Proof.
  unfold shown_scan, Spec.is_charb.
  destruct (Z.leb_spec 0 s), (Z.leb_spec s 1114111); simpl; try lia.
  destruct ((55296 <=? s) && (s <=? 57343))%bool; simpl; lia.
Qed.

Lemma char_text_shown (s1 s2 : Z) :
  Spec.char_text s1 = Spec.char_text s2 <-> shown_scan s1 = shown_scan s2.
Proof.
  unfold Spec.char_text. fold (shown_scan s1). fold (shown_scan s2). split.
  - intro E. apply utf8_bytes_inj; try apply shown_scan_range.
    apply bytes_string_inj; auto using utf8_bytes_ok, shown_scan_range.
  - intros ->. reflexivity.
Qed.

Lemma length_append (a b : string) :
  String.length (a ++ b) = (String.length a + String.length b)%nat.
Proof. induction a as [|c a IH]; simpl; [reflexivity | now rewrite IH]. Qed.

Lemma udec_length (k : nat) :
  forall n : N,
    (n < 10 ^ N.of_nat (S k))%N ->
    (1 <= String.length (udec n) <= S k)%nat.
Proof.
  induction k as [|k IH]; intros n Hn.
  - change (10 ^ N.of_nat 1)%N with 10%N in Hn.
    rewrite udec_small by assumption. simpl. lia.
  - destruct (N.lt_ge_cases n 10) as [Hs|Hb].
    + rewrite udec_small by assumption. simpl. lia.
    + assert (Hq : (n / 10 < 10 ^ N.of_nat (S k))%N).
      { apply N.Div0.div_lt_upper_bound.
        rewrite <- N.pow_succ_r', <- Nat2N.inj_succ. exact Hn. }
      assert (Hd : (n mod 10 < 10)%N) by (apply N.mod_lt; lia).
      assert (Hp : (0 < n / 10)%N) by (apply N.div_str_pos; lia).
      rewrite (N.div_mod n 10) by lia.
      rewrite udec_step by assumption.
      rewrite length_append. simpl. specialize (IH (n / 10)%N Hq). lia.
Qed.

Lemma decimal_length (z : Z) :
  is_int z -> (1 <= String.length (Spec.decimal z) <= 20)%nat.
Proof.
  unfold is_int. change (2 ^ 63) with 9223372036854775808. intro H.
  rewrite decimal_sign.
  destruct (Z.ltb_spec z 0) as [Hn|Hp].
  - assert (B : (Z.to_N (Z.abs z) < 10 ^ N.of_nat 19)%N).
    { change (10 ^ N.of_nat 19)%N with 10000000000000000000%N. lia. }
    apply udec_length in B. simpl. lia.
  - assert (B : (Z.to_N (Z.abs z) < 10 ^ N.of_nat 19)%N).
    { change (10 ^ N.of_nat 19)%N with 10000000000000000000%N. lia. }
    apply udec_length in B. lia.
Qed.

Lemma bytes_string_length (bs : list Z) :
  String.length (bytes_string bs) = List.length bs.
Proof. induction bs as [|b bs IH]; simpl; [reflexivity | now rewrite IH]. Qed.

Lemma char_text_length (s : Z) : (1 <= String.length (Spec.char_text s) <= 4)%nat.
Proof.
  unfold Spec.char_text. rewrite bytes_string_length. unfold Spec.utf8_bytes.
  repeat match goal with |- context [if ?b then _ else _] => destruct b end; simpl; lia.
Qed.

End RenderingMore.

(** Two domain values render to the same string exactly when they have the
    same width, the same height and scans that [%c] shows alike: the same
    character, or two values that are not code points of characters (negative,
    above U+10FFFF or a surrogate), which are all shown as U+FFFD. *)
Theorem String_equal_iff (r1 r2 : Resolution) :
  wf_Resolution r1 -> wf_Resolution r2 ->
  (Resolution_String r1 = Resolution_String r2
   <-> Width r1 = Width r2 /\ Height r1 = Height r2
       /\ shown_scan (Scan r1) = shown_scan (Scan r2)).
Proof.
  intros H1 H2. rewrite !String_rendering by assumption. split.
  - intro E. apply Ok_inj, rendering_inj in E. destruct E as (Ew & Eh & Es).
    apply char_text_shown in Es. auto.
  - intros (Ew & Eh & Es). apply char_text_shown in Es.
    unfold Spec.rendering. rewrite Ew, Eh, Es. reflexivity.
Qed.

Lemma String_equal_iff_witness :
  wf_Resolution {| Width := 3840; Height := 2160; Scan := 57343 |}
  /\ wf_Resolution {| Width := 3840; Height := 2160; Scan := -1 |}
  /\ Resolution_String {| Width := 3840; Height := 2160; Scan := 57343 |}
     = Resolution_String {| Width := 3840; Height := 2160; Scan := -1 |}.
Proof.
  assert (H1 : wf_Resolution {| Width := 3840; Height := 2160; Scan := 57343 |})
    by (unfold wf_Resolution, is_int, is_rune; simpl; lia).
  assert (H2 : wf_Resolution {| Width := 3840; Height := 2160; Scan := -1 |})
    by (unfold wf_Resolution, is_int, is_rune; simpl; lia).
  split; [exact H1|]. split; [exact H2|].
  apply (proj2 (String_equal_iff _ _ H1 H2)). repeat split.
Defined.

(** The rendering of a domain value is at least 11 and at most 52 bytes
    long, whatever the values of its [int] and [rune] fields. *)
Theorem String_length_bounds (r : Resolution) :
  wf_Resolution r ->
  exists s : string,
    Resolution_String r = Ok s /\ (11 <= String.length s <= 52)%nat.
Proof.
  intros (Hw & Hh & Hs). exists (Spec.rendering r).
  split; [apply String_rendering; exact (conj Hw (conj Hh Hs))|].
  unfold Spec.rendering. rewrite !length_append.
  pose proof (decimal_length (Width r) Hw).
  pose proof (decimal_length (Height r) Hh).
  pose proof (char_text_length (Scan r)).
  simpl String.length. lia.
Qed.

Lemma String_length_bounds_witness :
  wf_Resolution {| Width := -9223372036854775808; Height := -9223372036854775808;
                   Scan := 128512 |}
  /\ exists s : string,
      Resolution_String {| Width := -9223372036854775808; Height := -9223372036854775808;
                           Scan := 128512 |} = Ok s
      /\ (11 <= String.length s <= 52)%nat.
Proof.
  assert (H : wf_Resolution {| Width := -9223372036854775808;
                               Height := -9223372036854775808; Scan := 128512 |})
    by (unfold wf_Resolution, is_int, is_rune; simpl; lia).
  split; [exact H | exact (String_length_bounds _ H)].
Defined.

(** Two transfer values convert to the same domain value exactly when, field
    by field, they hold the same value or one is absent and the other holds
    the default (0 for width and height, ['P'] for the scan-mode). *)
Theorem AsResolution_equal_iff (d1 d2 : resolutionDTO) :
  AsResolution d1 = AsResolution d2
  <-> same_or_default 0 (dtoWidth d1) (dtoWidth d2)
      /\ same_or_default 0 (dtoHeight d1) (dtoHeight d2)
      /\ same_or_default rune_P (dtoScan d1) (dtoScan d2).
Proof.
  rewrite !AsResolution_eq.
  destruct d1 as [[w1|] [h1|] [s1|]], d2 as [[w2|] [h2|] [s2|]]; simpl;
    (split; [intro E; apply Ok_inj in E; inversion E; subst; repeat split
            | intros (? & ? & ?); subst; reflexivity]).
Qed.

(** ** The connection hook and [main] *)

Section Setup.

Lemma log_error_eq (pre err : string) (st : Hook.state) :
  all_chars (fun c => negb (Ascii.eqb c "%")) pre = true ->
  Hook.log_error (pre ++ "%v") err st
  = Ok {| Hook.logged := Hook.logged st ++ [(pre ++ err)%string];
          Hook.registry := Hook.registry st |}.
Proof. intro H. unfold Hook.log_error. rewrite Sprintf_error by exact H. reflexivity. Qed.







End Setup.

(** The connection hook either registers exactly one data type and logs
    nothing, or logs exactly one line and leaves the registry as it was.  It
    returns nil in the first case only, which needs the OID query and the
    construction of the composite type both to succeed; the type is then
    registered under the name it reports and the OID that the query gave.
    Otherwise the driver's error is returned as it came, and when the OID
    query fails the composite type is not even asked for. *)
Theorem AfterConnect_registers_or_logs (e : Hook.env) (st : Hook.state) :
  let fields := [("width", Hook.Int4OID e); ("height", Hook.Int4OID e);
                 ("scan", Hook.BPCharOID e)]%string in
  exists (ret : option string) (st' : Hook.state),
    Hook.AfterConnect e st = Ok (ret, st')
    /\ match ret with
       | None =>
           Hook.logged st' = Hook.logged st
           /\ exists (oid : Z) (ctype : Hook.CompositeType),
               Hook.scan_oid e "select 'resolution'::regtype::oid" = inr oid
               /\ Hook.NewCompositeType e "resolution" fields (Hook.registry st) = inr ctype
               /\ Hook.registry st'
                  = Hook.registry st
                    ++ [{| Hook.Value := ctype; Hook.Name := Hook.typeName ctype;
                           Hook.OID := uint32 oid |}]
       | Some err =>
           Hook.registry st' = Hook.registry st
           /\ ((Hook.scan_oid e "select 'resolution'::regtype::oid" = inl err
                /\ Hook.logged st'
                   = Hook.logged st ++ [("Failed to scan oid: " ++ err)%string])
               \/ ((exists oid : Z,
                       Hook.scan_oid e "select 'resolution'::regtype::oid" = inr oid)
                   /\ Hook.NewCompositeType e "resolution" fields (Hook.registry st) = inl err
                   /\ Hook.logged st'
                      = Hook.logged st ++ [("Failed to register new type: " ++ err)%string]))
       end.
Proof.
  intro fields. unfold Hook.AfterConnect. fold fields.
  destruct (Hook.scan_oid e "select 'resolution'::regtype::oid") as [err|oid] eqn:Eo.
  - pose proof (log_error_eq "Failed to scan oid: " err st eq_refl) as L.
    cbn [append] in L. rewrite L. cbn [bind].
    eexists _, _. split; [reflexivity|]. split; [reflexivity|]. left. split; reflexivity.
  - destruct (Hook.NewCompositeType e "resolution" fields (Hook.registry st))
      as [err|ctype] eqn:En.
    + pose proof (log_error_eq "Failed to register new type: " err st eq_refl) as L.
      cbn [append] in L. rewrite L. cbn [bind].
      eexists _, _. split; [reflexivity|]. split; [reflexivity|]. right.
      split; [exists oid; reflexivity|]. split; reflexivity.
    + eexists _, _. split; [reflexivity|]. split; [reflexivity|].
      exists oid, ctype. repeat split.
Qed.



(** When the set-up calls succeed, [main] logs what the connection hook
    logged on the connections opened, handles the rows up to the first failed
    scan, then runs the deferred calls in the reverse of the order in which
    they were deferred (the rows are closed, the connection is released, the
    pool is closed) and returns. *)
Theorem main_return_cleans_up (drv : Main.driver) (rows : list scanned)
        (rets1 rets2 : list (option string)) (lines1 lines2 : list string) :
  Main.ParseConfig drv = None ->
  Main.run_hooks (Main.opened (Main.ConnectConfig drv)) = Ok (rets1, lines1) ->
  Main.failure (Main.ConnectConfig drv) rets1 = None ->
  Main.run_hooks (Main.opened (Main.Acquire drv)) = Ok (rets2, lines2) ->
  Main.failure (Main.Acquire drv) rets2 = None ->
  Main.Query drv = inr rows ->
  Main.main drv
  = Ok (map Main.line (lines1 ++ lines2)
          ++ map Main.Did (List.concat (map row_events (rows_read rows)))
          ++ [Main.Ran Main.rows_Close; Main.Ran Main.conn_Release; Main.Ran Main.pool_Close],
        Main.Returned).
Proof.
  intros Hp R1 F1 R2 F2 Hq. unfold Main.main, Main.call_pool.
  rewrite Hp, R1. cbn [bind fst snd]. rewrite F1, R2. cbn [bind fst snd].
  rewrite F2, Hq, read_loop_events. cbn [bind].
  unfold Main.return_. cbn [Main.actions Main.defers Main.defer app map].
  rewrite map_app, <- !app_assoc. reflexivity.
Qed.

Lemma main_return_cleans_up_witness :
  Main.main
    {| Main.ParseConfig := None;
       Main.ConnectConfig :=
         {| Main.opened :=
              [ {| Main.hook_env :=
                     {| Hook.Int4OID := 23; Hook.BPCharOID := 1042;
                        Hook.scan_oid := fun _ => inr 16385;
                        Hook.NewCompositeType :=
                          fun name fs _ => inr {| Hook.typeName := name; Hook.fields := fs |} |};
                   Main.conn_registry := [] |} ];
            Main.failure := fun _ => None |};
       Main.Acquire := {| Main.opened := []; Main.failure := fun _ => None |};
       Main.Query := inr [ScanDone None; ScanFailed "bad row"; ScanDone None] |}
  = Ok ([Main.Did (Logged "No defined resolution");
         Main.Did (Logged "Failed to scan: bad row");
         Main.Ran Main.rows_Close; Main.Ran Main.conn_Release; Main.Ran Main.pool_Close],
        Main.Returned).
Proof.
  apply (main_return_cleans_up _ [ScanDone None; ScanFailed "bad row"; ScanDone None]
           [None] [] [] []); reflexivity.
Defined.
